(** * static/js/socket.js: the channel client

    A shallow embedding of the four send operations of [socket.js]
    ([joinGame], [sendAnswer], [validateCorrectAnswers], [endGame]) and of
    the module-level [const socket = io();], with the properties of the
    messages they hand to the connection. *)

From Stdlib Require Import Floats.SpecFloat.
From stdpp Require Import gmap strings list fin_maps.

Open Scope string_scope.
Open Scope list_scope.

(** ** JavaScript values *)

(** Heap locations (object identities) and connection handles. *)
Definition loc := positive.
Definition socket_id := nat.

(** A value is a primitive or a reference to a heap object.  Numbers are
    IEEE 754 doubles ([spec_float]); a socket is a host object, known by
    its handle. *)
Inductive value : Type :=
| VUndefined
| VNull
| VBool (b : bool)
| VNumber (x : spec_float)
| VBigInt (z : Z)
| VString (s : string)
| VRef (l : loc)
| VSocket (s : socket_id).

(** Heap objects: a plain object is a map from property names to values;
    an array is the list of its elements, in index order. *)
Inductive object : Type :=
| OPlain (props : gmap string value)
| OArray (elems : list value).

(** The number literal [n], for an integer [n], as a double. *)
Definition number_of_Z (n : Z) : value :=
  VNumber (binary_normalize 53 1024 n 0 false).

(** Strict equality, [a === b]: by value on primitives, with [NaN]
    different from itself and the two zeros equal; by identity on
    objects. *)
Definition strict_equals (a b : value) : bool :=
  match a, b with
  | VUndefined, VUndefined => true
  | VNull, VNull => true
  | VBool x, VBool y => Bool.eqb x y
  | VNumber x, VNumber y => SFeqb x y
  | VBigInt x, VBigInt y => Z.eqb x y
  | VString x, VString y => String.eqb x y
  | VRef x, VRef y => Pos.eqb x y
  | VSocket x, VSocket y => Nat.eqb x y
  | _, _ => false
  end.

Definition is_nan (v : value) : bool :=
  match v with
  | VNumber S754_nan => true
  | _ => false
  end.

(** ** Messages and the channel *)

(** One invocation [s.emit(ev, ...args)]. *)
Record emission : Type := Emission {
  em_socket : socket_id;
  em_event : string;
  em_args : list value
}.

(** The transport behind [socket.emit] is not part of this file.  It is
    an interface: handed a message, with the heap to read the arguments
    from, it moves to a new state of its own and either returns or raises
    an exception.  It reads the heap and does not write it. *)
Class Channel (T : Type) : Type := {
  channel_raises : emission -> gmap loc object -> T -> option value;
  channel_next : emission -> gmap loc object -> T -> T
}.

(** A channel that takes every message. *)
#[export] Instance reliable_channel : Channel unit := {
  channel_raises _ _ _ := None;
  channel_next _ _ t := t
}.

(** A sample channel that raises, for the scenarios: it refuses a message
    when an argument is a BigInt or is an object or an array that holds
    one directly, and takes every other message; its state counts the
    messages it took.  It looks no deeper and knows no cycles: a
    serialiser such as [JSON.stringify] refuses more. *)
Definition is_bigint (v : value) : bool :=
  match v with
  | VBigInt _ => true
  | _ => false
  end.

Definition unserialisable (h : gmap loc object) (v : value) : bool :=
  match v with
  | VBigInt _ => true
  | VRef l =>
      match h !! l with
      | Some (OPlain props) => existsb is_bigint (snd <$> map_to_list props)
      | Some (OArray elems) => existsb is_bigint elems
      | None => false
      end
  | _ => false
  end.

#[export] Instance json_channel : Channel nat := {
  channel_raises m h _ :=
    if existsb (unserialisable h) (em_args m)
    then Some (VString "TypeError: Do not know how to serialize a BigInt")
    else None;
  channel_next m h t :=
    if existsb (unserialisable h) (em_args m) then t else S t
}.

(** ** The world and the monad of effects *)

(** [heap]: the objects; [connections]: how many connections [io()] has
    opened so far; [emitted]: the invocations of [emit], oldest first;
    [chan]: the state of the transport. *)
Record world (T : Type) : Type := World {
  heap : gmap loc object;
  connections : nat;
  emitted : list emission;
  chan : T
}.
Arguments World {T} _ _ _ _.
Arguments heap {T} _.
Arguments connections {T} _.
Arguments emitted {T} _.
Arguments chan {T} _.

(** How a call ends: it returns a value, or an exception leaves it. *)
Inductive outcome (A : Type) : Type :=
| Normal (a : A)
| Throw (e : value).
Arguments Normal {A} a.
Arguments Throw {A} e.

(** The module scope of the file: [const socket]. *)
Record module_scope : Type := ModuleScope {
  socket : socket_id
}.

(** The four exported functions, with their arguments: one call. *)
Inductive call : Type :=
| JoinGame (gameId playerName : value)
| SendAnswer (gameId playerName answer : value)
| ValidateCorrectAnswers (gameId correctPlayers : value)
| EndGame (gameId : value).

(** A computation: from the world it starts in to the world it leaves
    and how it ended.  An exception ends the computation it occurs in; the
    world keeps what was done before. *)
Definition M (T A : Type) : Type := world T -> world T * outcome A.

Definition ret {T A} (a : A) : M T A := fun w => (w, Normal a).

Definition bind {T A B} (m : M T A) (k : A -> M T B) : M T B :=
  fun w =>
    match m w with
    | (w', Normal a) => k a w'
    | (w', Throw e) => (w', Throw e)
    end.

Notation "'let*' x ':=' m 'in' k" := (bind m (fun x => k))
  (at level 10, x name, m at level 100, k at level 200).

Section WithChannel.

Context {T : Type} {CH : Channel T}.

(** An object literal [{k1: v1, ..., kn: vn}]: the properties are set in
    the order written, on a new object at a location not in use. *)
Definition object_literal (fields : list (string * value)) : M T value :=
  fun w =>
    let l := fresh (dom (heap w)) in
    let props := foldl (fun o kv => <[kv.1 := kv.2]> o) ∅ fields in
    ({| heap := <[l := OPlain props]> (heap w);
        connections := connections w;
        emitted := emitted w;
        chan := chan w |},
     Normal (VRef l)).

(** [io()]: opens a connection and returns its socket. *)
Definition io : M T socket_id :=
  fun w =>
    ({| heap := heap w;
        connections := S (connections w);
        emitted := emitted w;
        chan := chan w |},
     Normal (connections w)).

(** [s.emit(ev, ...args)]: the message is handed to the channel; [emit]
    returns the socket itself unless the channel raises. *)
Definition socket_emit (s : socket_id) (ev : string) (args : list value)
  : M T value :=
  fun w =>
    let m := {| em_socket := s; em_event := ev; em_args := args |} in
    ({| heap := heap w;
        connections := connections w;
        emitted := emitted w ++ [m];
        chan := channel_next m (heap w) (chan w) |},
     match channel_raises m (heap w) (chan w) with
     | Some e => Throw e
     | None => Normal (VSocket s)
     end).

(** ** The module *)

(** Loading the file runs [const socket = io();]. *)
Definition load : M T module_scope :=
  let* s := io in
  ret {| socket := s |}.

Section Operations.

Variable scope : module_scope.

Definition joinGame (gameId playerName : value) : M T value :=
  let* payload := object_literal [("game_id", gameId);
                                  ("player", playerName)] in
  let* _ := socket_emit (socket scope) "join" [payload] in
  ret VUndefined.

Definition sendAnswer (gameId playerName answer : value) : M T value :=
  let* payload := object_literal [("game_id", gameId);
                                  ("player", playerName);
                                  ("answer", answer)] in
  let* _ := socket_emit (socket scope) "submit_answer" [payload] in
  ret VUndefined.

Definition validateCorrectAnswers (gameId correctPlayers : value)
  : M T value :=
  let* payload := object_literal [("game_id", gameId);
                                  ("correct_players", correctPlayers)] in
  let* _ := socket_emit (socket scope) "validate_answers" [payload] in
  ret VUndefined.

Definition endGame (gameId : value) : M T value :=
  let* payload := object_literal [("game_id", gameId)] in
  let* _ := socket_emit (socket scope) "end_game" [payload] in
  ret VUndefined.

(** A call of one of the four functions, as a UI event handler makes it. *)
Definition invoke (c : call) : M T value :=
  match c with
  | JoinGame gameId playerName => joinGame gameId playerName
  | SendAnswer gameId playerName answer => sendAnswer gameId playerName answer
  | ValidateCorrectAnswers gameId correctPlayers =>
      validateCorrectAnswers gameId correctPlayers
  | EndGame gameId => endGame gameId
  end.

(** Calls made one after the other, each by a handler of its own: the
    world a call leaves is the world the next one starts in. *)
Definition run_calls (cs : list call) (w : world T) : world T :=
  foldl (fun w c => (invoke c w).1) w cs.

End Operations.

End WithChannel.

(** ** Observations *)

Section Observations.

Context {T : Type}.

(** The messages a computation hands to the channel when run in [w]. *)
Definition emissions_of {A} (m : M T A) (w : world T) : list emission :=
  drop (length (emitted w)) (emitted (m w).1).

(** The payload of a message, as the heap of [w] holds it: the fields of
    the plain object that is the message's only argument. *)
Definition payload_of (w : world T) (m : emission)
  : option (gmap string value) :=
  match em_args m with
  | [VRef l] =>
      match heap w !! l with
      | Some (OPlain props) => Some props
      | _ => None
      end
  | _ => None
  end.

End Observations.

(** The [gameId] argument of a call, all its arguments, and the function
    it calls. *)
Definition gameId_of (c : call) : value :=
  match c with
  | JoinGame gameId _ => gameId
  | SendAnswer gameId _ _ => gameId
  | ValidateCorrectAnswers gameId _ => gameId
  | EndGame gameId => gameId
  end.

Definition args_of (c : call) : list value :=
  match c with
  | JoinGame gameId playerName => [gameId; playerName]
  | SendAnswer gameId playerName answer => [gameId; playerName; answer]
  | ValidateCorrectAnswers gameId correctPlayers => [gameId; correctPlayers]
  | EndGame gameId => [gameId]
  end.

Inductive function_name : Type :=
| FJoinGame
| FSendAnswer
| FValidateCorrectAnswers
| FEndGame.

Definition function_of (c : call) : function_name :=
  match c with
  | JoinGame _ _ => FJoinGame
  | SendAnswer _ _ _ => FSendAnswer
  | ValidateCorrectAnswers _ _ => FValidateCorrectAnswers
  | EndGame _ => FEndGame
  end.

(** Two calls in one handler, [f(...); g(...);]: an exception that
    leaves the first ends the handler. *)
Definition in_one_handler {T : Type} {CH : Channel T}
    (scope : module_scope) (c1 c2 : call) : M T value :=
  let* _ := invoke scope c1 in
  invoke scope c2.

(** Every message of the log is on a connection that has been opened. *)
Definition sockets_open {T : Type} (w : world T) : Prop :=
  Forall (fun m => em_socket m < connections w) (emitted w).

(** The heap as a graph: the references an object holds, the edges from
    object to object, a heap in which every reference is to a live
    object, and an object that lies on a cycle. *)
Definition refers_to (o : object) (a : loc) : Prop :=
  match o with
  | OPlain props => exists k, props !! k = Some (VRef a)
  | OArray elems => VRef a ∈ elems
  end.

Definition points_to (h : gmap loc object) (x a : loc) : Prop :=
  exists o, h !! x = Some o /\ refers_to o a.

Definition heap_closed (h : gmap loc object) : Prop :=
  forall x a, points_to h x a -> is_Some (h !! a).

Definition on_cycle (h : gmap loc object) (x : loc) : Prop :=
  tc (points_to h) x x.

(** ** Worlds for the scenarios *)

(** A page that has not loaded the file yet, on a channel that takes
    every message; the scope and the page once it has. *)
Definition fresh_page : world unit := World ∅ 0 [] tt.

Definition page_scope : module_scope := ModuleScope 0.

Definition loaded_page : world unit := (load fresh_page).1.

(** The same page with the array [["Alice", "Bob"]] on its heap. *)
Definition alice_bob : loc := 1%positive.

Definition page_with_players : world unit :=
  World {[alice_bob := OArray [VString "Alice"; VString "Bob"]]} 1 [] tt.

(** A page on the sample channel that refuses a BigInt. *)
Definition json_page : world nat := World ∅ 1 [] 0.

(** ** Properties *)

Section Properties.

Context {T : Type} {CH : Channel T}.

Variable scope : module_scope.

Implicit Types (w : world T) (c : call) (l : loc) (v : value).

(** The location an object literal takes is not in use before. *)
Lemma fresh_loc_free (h : gmap loc object) : h !! fresh (dom h) = None.
Proof. apply not_elem_of_dom, is_fresh. Qed.

(** An object that is live before an allocation is the same after it. *)
Lemma alloc_preserves (h : gmap loc object) (o o' : object) l :
  h !! l = Some o -> <[fresh (dom h) := o']> h !! l = Some o.
Proof.
  intros Hl. rewrite lookup_insert_ne; [done|].
  intros <-. rewrite fresh_loc_free in Hl. discriminate.
Qed.

(** [===] is reflexive everywhere but at [NaN]. *)
Lemma strict_equals_refl v : strict_equals v v = negb (is_nan v).
Proof.
  destruct v as [| | b | x | z | s | l | s]; cbn;
    auto using Z.eqb_refl, String.eqb_refl, Pos.eqb_refl, Nat.eqb_refl.
  - by destruct b.
  - unfold SFeqb, SFcompare.
    destruct x as [[] | [] | | [] m e]; cbn; try done.
    all: by rewrite Z.compare_refl, Pos.compare_cont_refl.
Qed.

(** Unfolds one operation down to the world it leaves. *)
Ltac run_op :=
  unfold invoke, joinGame, sendAnswer, validateCorrectAnswers, endGame,
    bind, object_literal, socket_emit, ret;
  cbn [fst snd foldl heap connections emitted chan];
  try match goal with
      | |- context [channel_raises ?m ?h ?t] =>
          destruct (channel_raises m h t)
      end;
  cbn [fst snd foldl heap connections emitted chan].

(** What every call does, in one statement: the event and the fields
    depend on the call alone; the payload goes to the location the heap
    has free; the outcome is the channel's. *)
Lemma invoke_frame c :
  exists ev props,
    props !! "game_id" = Some (gameId_of c)
    /\ (forall a, a ∈ args_of c <-> exists k, props !! k = Some a)
    /\ ev = match function_of c with
            | FJoinGame => "join"
            | FSendAnswer => "submit_answer"
            | FValidateCorrectAnswers => "validate_answers"
            | FEndGame => "end_game"
            end
    /\ forall w,
        let l := fresh (dom (heap w)) in
        let h' := <[l := OPlain props]> (heap w) in
        let m := Emission (socket scope) ev [VRef l] in
        invoke scope c w
        = (World h' (connections w) (emitted w ++ [m])
             (channel_next m h' (chan w)),
           match channel_raises m h' (chan w) with
           | Some e => Throw e
           | None => Normal VUndefined
           end).
Proof.
  destruct c as [g p | g p a | g cp | g];
    [ exists "join", (<["player" := p]> (<["game_id" := g]> ∅))
    | exists "submit_answer",
        (<["answer" := a]> (<["player" := p]> (<["game_id" := g]> ∅)))
    | exists "validate_answers",
        (<["correct_players" := cp]> (<["game_id" := g]> ∅))
    | exists "end_game", (<["game_id" := g]> ∅) ];
    (split; [| split; [| split; [reflexivity |]]]);
    try (intros w; run_op; reflexivity).
  all: try (cbn [gameId_of]; by simplify_map_eq).
  all: intros x; cbn [args_of]; rewrite ?elem_of_cons, elem_of_nil; split.
  all: try (intros [k Hk];
            repeat (apply lookup_insert_Some in Hk as [[_ Hk] | [_ Hk]];
                    [naive_solver |]);
            by rewrite lookup_empty in Hk).
  - intros [-> | [-> | []]]; [by exists "game_id" | by exists "player"].
  - intros [-> | [-> | [-> | []]]];
      [by exists "game_id" | by exists "player" | by exists "answer"].
  - intros [-> | [-> | []]];
      [by exists "game_id" | by exists "correct_players"].
  - intros [-> | []]; by exists "game_id".
Qed.

(** A call leaves every live object as it found it. *)
Lemma invoke_preserves c w l (o : object) :
  heap w !! l = Some o -> heap (invoke scope c w).1 !! l = Some o.
Proof.
  intros Hl. destruct (invoke_frame c) as (ev & props & _ & _ & _ & Hrun).
  rewrite Hrun. cbn [fst heap]. by apply alloc_preserves.
Qed.

Lemma run_calls_cons c (cs : list call) w :
  run_calls scope (c :: cs) w = run_calls scope cs (invoke scope c w).1.
Proof. reflexivity. Qed.

Lemma run_calls_preserves (cs : list call) w l (o : object) :
  heap w !! l = Some o -> heap (run_calls scope cs w) !! l = Some o.
Proof.
  revert w. induction cs as [| c cs IH]; intros w Hl; [done |].
  rewrite run_calls_cons. by apply IH, invoke_preserves.
Qed.

(** In one handler, [f(x); f(x);] is the two calls one after the other
    when the first returns. *)
Lemma invoke_then_invoke c w v :
  (invoke scope c w).2 = Normal v ->
  (let* _ := invoke scope c in invoke scope c) w
  = invoke scope c (invoke scope c w).1.
Proof.
  unfold bind. destruct (invoke scope c w) as [w1 [a | e]]; cbn; congruence.
Qed.

(** C1. [joinGame(gameId, playerName)] hands the channel exactly one
    message and nothing else: its event is ['join'] and its payload is a
    new object whose fields are [game_id], equal to [gameId], and
    [player], equal to [playerName]. *)
Theorem joinGame_emits_one_join (gameId playerName : value) w :
  let w' := (joinGame scope gameId playerName w).1 in
  exists l props,
    emitted w' = emitted w ++ [Emission (socket scope) "join" [VRef l]]
    /\ emissions_of (joinGame scope gameId playerName) w
       = [Emission (socket scope) "join" [VRef l]]
    /\ heap w !! l = None
    /\ heap w' !! l = Some (OPlain props)
    /\ props !! "game_id" = Some gameId
    /\ props !! "player" = Some playerName
    /\ dom props = {["game_id"; "player"]}.
Proof.
  exists (fresh (dom (heap w))),
    (<["player" := playerName]> {["game_id" := gameId]}).
  unfold emissions_of. run_op.
  all: rewrite drop_app_length, lookup_insert_eq;
    repeat split; auto using fresh_loc_free; set_solver.
Qed.

(** C2. [sendAnswer(gameId, playerName, answer)] hands the channel
    exactly one ['submit_answer'] message; its payload is a new object
    with the fields [game_id], [player] and [answer], and the [answer]
    field is the very value passed as [answer]. *)
Theorem sendAnswer_emits_one_submit_answer
    (gameId playerName answer : value) w :
  let w' := (sendAnswer scope gameId playerName answer w).1 in
  exists l props,
    emitted w'
    = emitted w ++ [Emission (socket scope) "submit_answer" [VRef l]]
    /\ emissions_of (sendAnswer scope gameId playerName answer) w
       = [Emission (socket scope) "submit_answer" [VRef l]]
    /\ heap w !! l = None
    /\ heap w' !! l = Some (OPlain props)
    /\ props !! "game_id" = Some gameId
    /\ props !! "player" = Some playerName
    /\ props !! "answer" = Some answer
    /\ dom props = {["game_id"; "player"; "answer"]}.
Proof.
  exists (fresh (dom (heap w))),
    (<["answer" := answer]>
       (<["player" := playerName]> {["game_id" := gameId]})).
  unfold emissions_of. run_op.
  all: rewrite drop_app_length, lookup_insert_eq;
    repeat split; auto using fresh_loc_free; set_solver.
Qed.

(** Read back with [===], the [answer] field equals the argument, except
    for [NaN], which [===] tells apart from itself. *)
Remark sendAnswer_answer_strict_equals (gameId playerName answer : value) w :
  exists l props a,
    emissions_of (sendAnswer scope gameId playerName answer) w
    = [Emission (socket scope) "submit_answer" [VRef l]]
    /\ heap (sendAnswer scope gameId playerName answer w).1 !! l
       = Some (OPlain props)
    /\ props !! "answer" = Some a
    /\ strict_equals a answer = negb (is_nan answer).
Proof.
  exists (fresh (dom (heap w))),
    (<["answer" := answer]>
       (<["player" := playerName]> {["game_id" := gameId]})), answer.
  unfold emissions_of. run_op.
  all: rewrite drop_app_length, lookup_insert_eq;
    repeat split; auto using strict_equals_refl.
Qed.

(** C3. [validateCorrectAnswers(gameId, correctPlayers)] hands the
    channel exactly one ['validate_answers'] message; its payload is a
    new object with the fields [game_id] and [correct_players], the
    latter being [correctPlayers] itself; when that is a collection on
    the heap, its elements and their order are after the call what they
    were before. *)
Theorem validateCorrectAnswers_emits_one_validate_answers
    (gameId correctPlayers : value) w :
  let w' := (validateCorrectAnswers scope gameId correctPlayers w).1 in
  exists l props,
    emitted w'
    = emitted w ++ [Emission (socket scope) "validate_answers" [VRef l]]
    /\ emissions_of (validateCorrectAnswers scope gameId correctPlayers) w
       = [Emission (socket scope) "validate_answers" [VRef l]]
    /\ heap w !! l = None
    /\ heap w' !! l = Some (OPlain props)
    /\ props !! "game_id" = Some gameId
    /\ props !! "correct_players" = Some correctPlayers
    /\ dom props = {["game_id"; "correct_players"]}
    /\ (forall a elems,
          correctPlayers = VRef a ->
          heap w !! a = Some (OArray elems) ->
          heap w' !! a = Some (OArray elems)).
Proof.
  exists (fresh (dom (heap w))),
    (<["correct_players" := correctPlayers]> {["game_id" := gameId]}).
  unfold emissions_of. run_op.
  all: rewrite drop_app_length, lookup_insert_eq;
    repeat split; auto using fresh_loc_free, alloc_preserves; set_solver.
Qed.

(** C4. [endGame(gameId)] hands the channel exactly one ['end_game']
    message; its payload is a new object whose only field is [game_id],
    equal to [gameId]. *)
Theorem endGame_emits_one_end_game (gameId : value) w :
  let w' := (endGame scope gameId w).1 in
  exists l props,
    emitted w' = emitted w ++ [Emission (socket scope) "end_game" [VRef l]]
    /\ emissions_of (endGame scope gameId) w
       = [Emission (socket scope) "end_game" [VRef l]]
    /\ heap w !! l = None
    /\ heap w' !! l = Some (OPlain props)
    /\ props !! "game_id" = Some gameId
    /\ dom props = {["game_id"]}
    /\ props = {["game_id" := gameId]}.
Proof.
  exists (fresh (dom (heap w))), {["game_id" := gameId]}.
  unfold emissions_of. run_op.
  all: rewrite drop_app_length, lookup_insert_eq;
    repeat split; auto using fresh_loc_free; set_solver.
Qed.

Lemma run_calls_connections (cs : list call) w :
  connections (run_calls scope cs w) = connections w.
Proof.
  revert w. induction cs as [| c cs IH]; intros w; [done |].
  rewrite run_calls_cons, IH.
  destruct (invoke_frame c) as (ev & props & _ & _ & _ & Hrun).
  by rewrite Hrun.
Qed.

(** The messages of calls made one after the other: one per call, in
    the order of the calls, each on the module's socket, each with a
    payload that the last world still holds and whose [game_id] is the
    [gameId] of its call. *)
Lemma run_calls_messages (cs : list call) w :
  exists ms,
    emitted (run_calls scope cs w) = emitted w ++ ms
    /\ Forall2
         (fun c m =>
            em_socket m = socket scope
            /\ exists props,
                payload_of (run_calls scope cs w) m = Some props
                /\ props !! "game_id" = Some (gameId_of c))
         cs ms.
Proof.
  revert w. induction cs as [| c cs IH]; intros w.
  - exists []. split; [by rewrite app_nil_r | constructor].
  - rewrite run_calls_cons.
    destruct (IH (invoke scope c w).1) as (ms & Hms & Hall).
    destruct (invoke_frame c) as (ev & props & Hg & _ & _ & Hrun).
    exists (Emission (socket scope) ev [VRef (fresh (dom (heap w)))] :: ms).
    split.
    + rewrite Hms, Hrun. cbn [fst emitted]. by rewrite <- app_assoc.
    + constructor; [| done]. split; [done |]. exists props. split; [| done].
      unfold payload_of. cbn [em_args].
      rewrite (run_calls_preserves cs _ (fresh (dom (heap w))) (OPlain props));
        [done |].
      rewrite Hrun. cbn [fst heap]. apply lookup_insert_eq.
Qed.

(** C5. Whatever calls of the four functions are made, with whatever
    arguments, each of them emits a message, and every message emitted
    has a payload with a [game_id] field that equals the [gameId]
    argument of the call it comes from. *)
Theorem game_id_on_every_message (cs : list call) w :
  let w' := run_calls scope cs w in
  exists ms,
    emitted w' = emitted w ++ ms
    /\ Forall2
         (fun c m =>
            exists props,
              payload_of w' m = Some props
              /\ props !! "game_id" = Some (gameId_of c))
         cs ms.
Proof.
  destruct (run_calls_messages cs w) as (ms & Hms & Hall).
  exists ms. split; [done |].
  eapply Forall2_impl; [exact Hall |]. by intros c m [_ Hpayload].
Qed.

(** C6. No argument is checked and no error comes from the function
    itself: for every call, the empty string and any other value alike,
    one message is emitted, the values of the payload's fields are the
    arguments and nothing else, and the call ends as the channel's [emit]
    does: it raises what the channel raises and returns when the channel
    returns. *)
Theorem no_validation_no_local_error c w :
  let w' := (invoke scope c w).1 in
  exists m props,
    emissions_of (invoke scope c) w = [m]
    /\ payload_of w' m = Some props
    /\ (forall a, a ∈ args_of c <-> exists k, props !! k = Some a)
    /\ (invoke scope c w).2
       = match channel_raises m (heap w') (chan w) with
         | Some e => Throw e
         | None => Normal VUndefined
         end.
Proof.
  destruct (invoke_frame c) as (ev & props & _ & Hargs & _ & Hrun).
  exists (Emission (socket scope) ev [VRef (fresh (dom (heap w)))]), props.
  unfold emissions_of, payload_of. rewrite Hrun.
  cbn [fst snd heap emitted em_args].
  by rewrite drop_app_length, lookup_insert_eq.
Qed.

(** C7. Nothing is deduplicated: the same call made twice in a row emits
    two messages, the second like the first, with two different payload
    objects of equal fields. *)
Theorem no_deduplication c w :
  let w2 := run_calls scope [c; c] w in
  exists m1 m2 props,
    emitted w2 = emitted w ++ [m1; m2]
    /\ em_socket m1 = em_socket m2
    /\ em_event m1 = em_event m2
    /\ em_args m1 <> em_args m2
    /\ payload_of w2 m1 = Some props
    /\ payload_of w2 m2 = Some props.
Proof.
  destruct (invoke_frame c) as (ev & props & _ & _ & _ & Hrun).
  set (l1 := fresh (dom (heap w))).
  set (w1 := (invoke scope c w).1).
  set (l2 := fresh (dom (heap w1))).
  exists (Emission (socket scope) ev [VRef l1]),
    (Emission (socket scope) ev [VRef l2]), props.
  assert (Hl1 : heap w1 !! l1 = Some (OPlain props)).
  { unfold w1. rewrite Hrun. cbn [fst heap]. apply lookup_insert_eq. }
  assert (Hne : l1 <> l2).
  { intros Heq. pose proof (fresh_loc_free (heap w1)) as Hfree.
    fold l2 in Hfree. rewrite <- Heq, Hl1 in Hfree. discriminate. }
  unfold run_calls. cbn [foldl]. fold w1.
  rewrite (Hrun w1). fold l2. cbn [fst heap emitted].
  unfold payload_of. cbn [em_socket em_event em_args heap].
  rewrite lookup_insert_eq, lookup_insert_ne by done. rewrite Hl1.
  unfold w1 at 1. rewrite Hrun. cbn [fst emitted]. fold l1.
  rewrite <- app_assoc. repeat split; try done. congruence.
Qed.

(** C8, as amended.  A call returns no value whenever [emit] returns:
    for every call and all arguments, when the channel takes the message
    handed to it, the call returns [undefined], and not what [emit]
    returned. *)
Theorem returns_no_value c w
    (Htakes : Forall
                (fun m =>
                   channel_raises m (heap (invoke scope c w).1) (chan w)
                   = None)
                (emissions_of (invoke scope c) w)) :
  (invoke scope c w).2 = Normal VUndefined.
Proof.
  destruct (invoke_frame c) as (ev & props & _ & _ & _ & Hrun).
  revert Htakes. unfold emissions_of. rewrite Hrun.
  cbn [fst snd heap emitted]. rewrite drop_app_length.
  intros Htakes%Forall_inv. by rewrite Htakes.
Qed.

(** C10. What a call emits is a function of the call: made in any two
    worlds, the same call emits one message each time, with the same
    event name and payloads of equal fields; and the event name is fixed
    by the function called, whatever the arguments. *)
Theorem emission_is_deterministic c (w1 w2 : world T) :
  exists m1 m2 props,
    emissions_of (invoke scope c) w1 = [m1]
    /\ emissions_of (invoke scope c) w2 = [m2]
    /\ em_event m1 = em_event m2
    /\ em_event m1 = match function_of c with
                     | FJoinGame => "join"
                     | FSendAnswer => "submit_answer"
                     | FValidateCorrectAnswers => "validate_answers"
                     | FEndGame => "end_game"
                     end
    /\ payload_of (invoke scope c w1).1 m1 = Some props
    /\ payload_of (invoke scope c w2).1 m2 = Some props.
Proof.
  destruct (invoke_frame c) as (ev & props & _ & _ & Hev & Hrun).
  exists (Emission (socket scope) ev [VRef (fresh (dom (heap w1)))]),
    (Emission (socket scope) ev [VRef (fresh (dom (heap w2)))]), props.
  unfold emissions_of, payload_of. rewrite !Hrun.
  cbn [fst heap emitted em_args em_event].
  by rewrite !drop_app_length, !lookup_insert_eq.
Qed.

End Properties.

(** ** The connection *)

Section Connection.

Context {T : Type} {CH : Channel T}.

(** C9. Loading the file opens one connection, the one [socket] names,
    and does nothing else; whatever calls follow, no further connection
    is opened, every message goes to that socket, and every object that
    was live stays as it was. *)
Theorem one_connection_for_all_operations (cs : list call) w :
  let w1 := (load w).1 in
  exists s,
    (load w).2 = Normal (ModuleScope s)
    /\ s = connections w
    /\ connections w1 = S (connections w)
    /\ heap w1 = heap w
    /\ emitted w1 = emitted w
    /\ chan w1 = chan w
    /\ let w2 := run_calls (ModuleScope s) cs w1 in
       connections w2 = connections w1
       /\ (exists ms,
             emitted w2 = emitted w1 ++ ms
             /\ length ms = length cs
             /\ Forall (fun m => em_socket m = s) ms)
       /\ (forall l (o : object),
             heap w1 !! l = Some o -> heap w2 !! l = Some o).
Proof.
  exists (connections w). cbn. repeat split; auto using run_calls_preserves.
  - apply run_calls_connections.
  - destruct (run_calls_messages (ModuleScope (connections w)) cs
                (World (heap w) (S (connections w)) (emitted w) (chan w)))
      as (ms & Hms & Hall).
    exists ms. split; [done |]. split.
    + symmetry. eapply Forall2_length, Hall.
    + clear Hms. induction Hall as [| c m cs' ms' [Hs _] _ IH];
        constructor; auto.
Qed.

End Connection.

(** ** Calls in sequence, and what a message tells *)

Section Composition.

Context {T : Type} {CH : Channel T}.

Implicit Types (w : world T) (c : call) (l : loc) (scope : module_scope).

(** The message and the payload of a call, written out. *)
Lemma invoke_payload scope c w :
  let l := fresh (dom (heap w)) in
  exists ev,
    emissions_of (invoke scope c) w = [Emission (socket scope) ev [VRef l]]
    /\ heap w !! l = None
    /\ payload_of (invoke scope c w).1 (Emission (socket scope) ev [VRef l])
       = Some match c with
              | JoinGame g p =>
                  <["player" := p]> (<["game_id" := g]> ∅)
              | SendAnswer g p a =>
                  <["answer" := a]>
                    (<["player" := p]> (<["game_id" := g]> ∅))
              | ValidateCorrectAnswers g cp =>
                  <["correct_players" := cp]> (<["game_id" := g]> ∅)
              | EndGame g => <["game_id" := g]> ∅
              end.
Proof.
  destruct c as [g p | g p a | g cp | g];
    [ exists "join" | exists "submit_answer"
    | exists "validate_answers" | exists "end_game" ];
    unfold emissions_of, payload_of, invoke, joinGame, sendAnswer,
      validateCorrectAnswers, endGame, bind, object_literal, socket_emit, ret;
    cbn [fst snd foldl heap emitted em_args];
    destruct (channel_raises _ _ _);
    cbn [fst snd heap emitted];
    rewrite drop_app_length, lookup_insert_eq;
    auto using fresh_loc_free.
Qed.

(** X1. Calls made one after the other emit one message each, after what
    was emitted before and in the order of the calls: the event names of
    the new messages are those of the functions called. *)
Theorem messages_follow_calls scope (cs : list call) w :
  exists ms,
    emitted (run_calls scope cs w) = emitted w ++ ms
    /\ em_event <$> ms
       = (fun c => match function_of c with
                   | FJoinGame => "join"
                   | FSendAnswer => "submit_answer"
                   | FValidateCorrectAnswers => "validate_answers"
                   | FEndGame => "end_game"
                   end) <$> cs.
Proof.
  revert w. induction cs as [| c cs IH]; intros w.
  - exists []. by rewrite app_nil_r.
  - rewrite run_calls_cons.
    destruct (IH (invoke scope c w).1) as (ms & Hms & Hev).
    destruct (invoke_frame scope c) as (ev & props & _ & _ & -> & Hrun).
    eexists (_ :: ms). split.
    + rewrite Hms, Hrun. cbn [fst emitted]. by rewrite <- app_assoc.
    + cbn [fmap list_fmap em_event]. f_equal. exact Hev.
Qed.

(** X2. No payload object is shared: over any sequence of calls, every
    message has one argument, a reference; these references are pairwise
    different, and none is an object that was there before the calls. *)
Theorem payloads_never_shared scope (cs : list call) w :
  exists ms ls,
    emitted (run_calls scope cs w) = emitted w ++ ms
    /\ em_args <$> ms = (fun l => [VRef l]) <$> ls
    /\ length ls = length cs
    /\ NoDup ls
    /\ Forall (fun l => heap w !! l = None) ls.
Proof.
  revert w. induction cs as [| c cs IH]; intros w.
  - exists [], []. rewrite app_nil_r. repeat split; constructor.
  - rewrite run_calls_cons.
    destruct (IH (invoke scope c w).1)
      as (ms & ls & Hms & Hargs & Hlen & Hnd & Hfree).
    destruct (invoke_frame scope c) as (ev & props & _ & _ & _ & Hrun).
    assert (Hem : emitted (invoke scope c w).1
                  = emitted w
                    ++ [Emission (socket scope) ev
                          [VRef (fresh (dom (heap w)))]])
      by (by rewrite Hrun).
    assert (Hheap : heap (invoke scope c w).1
                    = <[fresh (dom (heap w)) := OPlain props]> (heap w))
      by (by rewrite Hrun).
    rewrite Hheap in Hfree.
    exists (Emission (socket scope) ev [VRef (fresh (dom (heap w)))] :: ms),
      (fresh (dom (heap w)) :: ls).
    split; [by rewrite Hms, Hem, <- app_assoc |].
    split; [cbn [fmap list_fmap em_args]; by f_equal |].
    split; [cbn; by f_equal |].
    split.
    + constructor; [| done]. intros Hin.
      rewrite Forall_forall in Hfree. specialize (Hfree _ Hin).
      by rewrite lookup_insert_eq in Hfree.
    + constructor; [apply fresh_loc_free |].
      eapply Forall_impl; [exact Hfree |].
      intros l Hl. by apply lookup_insert_None in Hl as [Hl _].
Qed.

(** X3. The event name tells which function was called: two messages
    with the same event name, from whatever calls, sockets and worlds,
    come from the same function. *)
Theorem event_identifies_function scope1 scope2 c1 c2 w1 w2 m1 m2
    (Hm1 : m1 ∈ emissions_of (invoke scope1 c1) w1)
    (Hm2 : m2 ∈ emissions_of (invoke scope2 c2) w2)
    (Hev : em_event m1 = em_event m2) :
  function_of c1 = function_of c2.
Proof.
  destruct (invoke_frame scope1 c1) as (ev1 & props1 & _ & _ & Hev1 & Hrun1).
  destruct (invoke_frame scope2 c2) as (ev2 & props2 & _ & _ & Hev2 & Hrun2).
  unfold emissions_of in Hm1, Hm2. rewrite Hrun1 in Hm1. rewrite Hrun2 in Hm2.
  cbn [fst emitted] in Hm1, Hm2. rewrite drop_app_length in Hm1, Hm2.
  apply list_elem_of_singleton in Hm1 as ->.
  apply list_elem_of_singleton in Hm2 as ->.
  cbn [em_event] in Hev. rewrite Hev1, Hev2 in Hev.
  destruct c1, c2; cbn in Hev |- *; done.
Qed.

(** X4. The payload tells the call: two messages whose payloads have the
    same fields come from the same function called with the same
    arguments. *)
Theorem payload_identifies_call scope1 scope2 c1 c2 w1 w2 m1 m2
    (Hm1 : m1 ∈ emissions_of (invoke scope1 c1) w1)
    (Hm2 : m2 ∈ emissions_of (invoke scope2 c2) w2)
    (Hpayload : payload_of (invoke scope1 c1 w1).1 m1
                = payload_of (invoke scope2 c2 w2).1 m2) :
  c1 = c2.
Proof.
  destruct (invoke_payload scope1 c1 w1) as (ev1 & He1 & _ & Hp1).
  destruct (invoke_payload scope2 c2 w2) as (ev2 & He2 & _ & Hp2).
  rewrite He1 in Hm1. rewrite He2 in Hm2.
  apply list_elem_of_singleton in Hm1 as ->.
  apply list_elem_of_singleton in Hm2 as ->.
  rewrite Hp1, Hp2 in Hpayload. clear - Hpayload.
  injection Hpayload as Hprops.
  pose proof (f_equal (fun o => o !! "game_id") Hprops) as Hg.
  pose proof (f_equal (fun o => o !! "player") Hprops) as Hp.
  pose proof (f_equal (fun o => o !! "answer") Hprops) as Ha.
  pose proof (f_equal (fun o => o !! "correct_players") Hprops) as Hc.
  destruct c1, c2; vm_compute in Hg, Hp, Ha, Hc; congruence.
Qed.

(** X5. Two calls in one handler: the first message is always emitted;
    when the channel raises on it, the handler ends there with that
    exception and the second call emits nothing; when the channel takes
    it, the second call runs in the world the first one left and the
    handler ends as the second call does. *)
Theorem handler_stops_at_exception scope c1 c2 w :
  let w1 := (invoke scope c1 w).1 in
  exists m1,
    emissions_of (invoke scope c1) w = [m1]
    /\ match channel_raises m1 (heap w1) (chan w) with
       | Some e =>
           emissions_of (in_one_handler scope c1 c2) w = [m1]
           /\ (in_one_handler scope c1 c2 w).1 = w1
           /\ (in_one_handler scope c1 c2 w).2 = Throw e
       | None =>
           exists m2,
             emissions_of (invoke scope c2) w1 = [m2]
             /\ emissions_of (in_one_handler scope c1 c2) w = [m1; m2]
             /\ in_one_handler scope c1 c2 w = invoke scope c2 w1
       end.
Proof.
  destruct (invoke_frame scope c1) as (ev1 & props1 & _ & _ & _ & Hrun1).
  destruct (invoke_frame scope c2) as (ev2 & props2 & _ & _ & _ & Hrun2).
  exists (Emission (socket scope) ev1 [VRef (fresh (dom (heap w)))]).
  unfold in_one_handler, bind, emissions_of. rewrite Hrun1.
  cbn [fst snd heap emitted]. rewrite drop_app_length.
  split; [done |].
  destruct (channel_raises _ _ _) as [e |].
  - cbn [fst snd emitted]. by rewrite drop_app_length.
  - eexists. rewrite Hrun2. cbn [fst snd heap emitted].
    rewrite drop_app_length. split; [reflexivity |]. split; [| done].
    by rewrite <- app_assoc, drop_app_length.
Qed.

(** A path ends with an edge into its end. *)
Lemma tc_last_edge {A} (R : relation A) x y : tc R x y -> exists z, R z y.
Proof. induction 1 as [x y Hxy | x y z _ _ IH]; eauto. Qed.

(** If no edge of [R'] goes into [l] and [R'] is [R] away from [l], a
    path of [R'] that does not start at [l] is a path of [R]. *)
Lemma tc_avoiding {A} (R R' : relation A) (l : A) :
  (forall x, ~ R' x l) ->
  (forall x y, x <> l -> R' x y -> R x y) ->
  forall x y, tc R' x y -> x <> l -> tc R x y.
Proof.
  intros Hinto Hsame x y Hpath.
  induction Hpath as [x y Hxy | x y z Hxy _ IH]; intros Hx.
  - apply tc_once. by apply Hsame.
  - eapply tc_l; [by apply Hsame |]. apply IH.
    intros ->. by eapply Hinto.
Qed.

(** X6. A call adds the payload to the heap and nothing else, and ties no
    knot: in a heap where every reference is to a live object, called
    with arguments whose references are to live objects, the call leaves
    exactly one new object, the payload; the objects that were there are
    unchanged; every reference in the payload is to an object that was
    live before; nothing refers to the payload; whatever lies on a cycle
    after the call lay on one before; and every reference is still to a
    live object. *)
Theorem call_adds_payload_and_no_cycle scope c w
    (Hclosed : heap_closed (heap w))
    (Hlive : forall a, VRef a ∈ args_of c -> is_Some (heap w !! a)) :
  let w' := (invoke scope c w).1 in
  exists m l props,
    emissions_of (invoke scope c) w = [m]
    /\ em_args m = [VRef l]
    /\ payload_of w' m = Some props
    /\ heap w !! l = None
    /\ dom (heap w') = {[l]} ∪ dom (heap w)
    /\ (forall a, a <> l -> heap w' !! a = heap w !! a)
    /\ (forall k a,
          props !! k = Some (VRef a) -> a <> l /\ is_Some (heap w !! a))
    /\ (forall x, ~ points_to (heap w') x l)
    /\ (forall x, on_cycle (heap w') x -> on_cycle (heap w) x)
    /\ heap_closed (heap w').
Proof.
  destruct (invoke_frame scope c) as (ev & props & _ & Hargs & _ & Hrun).
  set (l := fresh (dom (heap w))).
  assert (Hfree : heap w !! l = None) by apply fresh_loc_free.
  assert (Hheap : heap (invoke scope c w).1 = <[l := OPlain props]> (heap w))
    by (by rewrite Hrun).
  assert (Hprops : forall k a,
            props !! k = Some (VRef a) -> a <> l /\ is_Some (heap w !! a)).
  { intros k a Hk.
    assert (Ha : is_Some (heap w !! a)) by (apply Hlive, Hargs; eauto).
    split; [| done]. intros ->. rewrite Hfree in Ha. by destruct Ha. }
  assert (Hold : forall x a,
            x <> l -> points_to (<[l := OPlain props]> (heap w)) x a ->
            points_to (heap w) x a).
  { intros x a Hx (o & Ho & Hr). rewrite lookup_insert_ne in Ho by done.
    by exists o. }
  assert (Hinto : forall x, ~ points_to (<[l := OPlain props]> (heap w)) x l).
  { intros x Hxl. destruct (decide (x = l)) as [-> | Hx].
    - destruct Hxl as (o & Ho & Hr). rewrite lookup_insert_eq in Ho.
      injection Ho as <-. destruct Hr as [k Hk].
      by destruct (Hprops k l Hk).
    - apply Hold, Hclosed in Hxl; [| done].
      rewrite Hfree in Hxl. by destruct Hxl. }
  exists (Emission (socket scope) ev [VRef l]), l, props.
  cbv zeta. unfold payload_of. cbn [em_args]. rewrite Hheap.
  split; [unfold emissions_of; rewrite Hrun; cbn [fst emitted];
          by rewrite drop_app_length |].
  split; [done |].
  split; [by rewrite lookup_insert_eq |].
  split; [done |].
  split; [apply dom_insert_L |].
  split; [intros a Ha; by rewrite lookup_insert_ne |].
  split; [done |].
  split; [done |].
  split.
  - intros x Hcyc. unfold on_cycle in *.
    destruct (decide (x = l)) as [-> | Hx].
    + apply tc_last_edge in Hcyc as [z Hz]. by apply Hinto in Hz.
    + by apply (tc_avoiding _ _ l Hinto Hold).
  - intros x a Hxa. destruct (decide (x = l)) as [-> | Hx].
    + destruct Hxa as (o & Ho & Hr). rewrite lookup_insert_eq in Ho.
      injection Ho as <-. destruct Hr as [k Hk].
      destruct (Hprops k a Hk) as [Hne Ha].
      by rewrite lookup_insert_ne.
    + apply Hold in Hxa; [| done]. apply Hclosed in Hxa as Ha.
      destruct (decide (a = l)) as [-> | Hne];
        [by rewrite lookup_insert_eq | by rewrite lookup_insert_ne].
Qed.

(** X7. No message goes to a connection that was not opened: if that
    holds of the log when the file is loaded, it holds after any calls
    made through the module's socket. *)
Theorem messages_only_on_open_sockets (cs : list call) w
    (Hopen : sockets_open w) :
  exists scope,
    (load w).2 = Normal scope
    /\ socket scope < connections (load w).1
    /\ sockets_open (run_calls scope cs (load w).1).
Proof.
  exists (ModuleScope (connections w)).
  assert (Hconn : connections (load w).1 = S (connections w)) by done.
  split; [done |]. split; [rewrite Hconn; cbn; lia |].
  set (scope := ModuleScope (connections w)).
  set (w1 := (load w).1) in *.
  destruct (run_calls_messages scope cs w1) as (ms & Hms & Hall).
  unfold sockets_open. rewrite Hms, run_calls_connections.
  apply Forall_app. split.
  - eapply Forall_impl; [exact Hopen |]. intros m Hm. cbn beta in Hm. rewrite Hconn. lia.
  - clear Hms. induction Hall as [| c m cs' ms' [Hs _] _ IH];
      constructor; [| done].
    rewrite Hs, Hconn. cbn. lia.
Qed.

End Composition.

(** ** Scenarios *)

(** The number [42] as a double. *)
Example number_42 :
  number_of_Z 42 = VNumber (S754_finite false 5910974510923776 (-47)).
Proof. reflexivity. Qed.

(** Loading the file on a fresh page opens connection [0]. *)
Example load_fresh_page :
  load fresh_page = (World ∅ 1 [] tt, Normal page_scope).
Proof. reflexivity. Qed.

(** [joinGame("ABCD", "Alice")]. *)
Example joinGame_ABCD_Alice :
  joinGame page_scope (VString "ABCD") (VString "Alice") loaded_page
  = (World
       {[1%positive := OPlain {["game_id" := VString "ABCD";
                                "player" := VString "Alice"]}]}
       1 [Emission 0 "join" [VRef 1%positive]] tt,
     Normal VUndefined).
Proof. vm_compute. reflexivity. Qed.

(** [sendAnswer("ABCD", "Alice", 42)]. *)
Example sendAnswer_ABCD_Alice_42 :
  sendAnswer page_scope (VString "ABCD") (VString "Alice") (number_of_Z 42)
    loaded_page
  = (World
       {[1%positive := OPlain {["game_id" := VString "ABCD";
                                "player" := VString "Alice";
                                "answer" := number_of_Z 42]}]}
       1 [Emission 0 "submit_answer" [VRef 1%positive]] tt,
     Normal VUndefined).
Proof. vm_compute. reflexivity. Qed.

(** [validateCorrectAnswers("ABCD", ["Alice", "Bob"])]: the payload is
    object [2], and its [correct_players] is the array at [1]. *)
Example validateCorrectAnswers_ABCD_Alice_Bob :
  validateCorrectAnswers page_scope (VString "ABCD") (VRef alice_bob)
    page_with_players
  = (World
       {[alice_bob := OArray [VString "Alice"; VString "Bob"];
         2%positive := OPlain {["game_id" := VString "ABCD";
                                "correct_players" := VRef alice_bob]}]}
       1 [Emission 0 "validate_answers" [VRef 2%positive]] tt,
     Normal VUndefined).
Proof. vm_compute. reflexivity. Qed.

(** [endGame("ABCD")]. *)
Example endGame_ABCD :
  endGame page_scope (VString "ABCD") loaded_page
  = (World {[1%positive := OPlain {["game_id" := VString "ABCD"]}]}
       1 [Emission 0 "end_game" [VRef 1%positive]] tt,
     Normal VUndefined).
Proof. vm_compute. reflexivity. Qed.

(** [joinGame("", "")]: empty strings go out like any other value. *)
Example joinGame_empty_strings :
  joinGame page_scope (VString "") (VString "") loaded_page
  = (World
       {[1%positive := OPlain {["game_id" := VString "";
                                "player" := VString ""]}]}
       1 [Emission 0 "join" [VRef 1%positive]] tt,
     Normal VUndefined).
Proof. vm_compute. reflexivity. Qed.

(** [joinGame("ABCD")], one argument short: [player] is [undefined]. *)
Example joinGame_missing_player :
  emitted (joinGame page_scope (VString "ABCD") VUndefined loaded_page).1
  = [Emission 0 "join" [VRef 1%positive]]
  /\ payload_of (joinGame page_scope (VString "ABCD") VUndefined loaded_page).1
       (Emission 0 "join" [VRef 1%positive])
     = Some {["game_id" := VString "ABCD"; "player" := VUndefined]}.
Proof. split; vm_compute; reflexivity. Qed.

(** On the channel that refuses a BigInt, [sendAnswer("ABCD", "Alice", 7n)]
    hands its message over and ends with the channel's exception; the
    channel has taken no message. *)
Example sendAnswer_bigint_on_json_channel :
  let r := sendAnswer page_scope (VString "ABCD") (VString "Alice")
             (VBigInt 7) json_page in
  emitted r.1 = [Emission 0 "submit_answer" [VRef 1%positive]]
  /\ chan r.1 = 0
  /\ r.2 = Throw (VString "TypeError: Do not know how to serialize a BigInt").
Proof. repeat split; vm_compute; reflexivity. Qed.

(** [endGame("ABCD")] twice. *)
Example endGame_twice :
  emitted (run_calls page_scope [EndGame (VString "ABCD");
                                 EndGame (VString "ABCD")] loaded_page)
  = [Emission 0 "end_game" [VRef 1%positive];
     Emission 0 "end_game" [VRef 2%positive]].
Proof. vm_compute. reflexivity. Qed.

(** The array that [validateCorrectAnswers("ABCD", ["Alice", "Bob"])] is
    given holds ["Alice"] and ["Bob"], in that order, after the call. *)
Lemma validateCorrectAnswers_keeps_alice_bob :
  heap page_with_players !! alice_bob
  = Some (OArray [VString "Alice"; VString "Bob"])
  /\ heap (validateCorrectAnswers page_scope (VString "ABCD")
            (VRef alice_bob) page_with_players).1 !! alice_bob
     = Some (OArray [VString "Alice"; VString "Bob"]).
Proof.
  split; [reflexivity |].
  destruct (validateCorrectAnswers_emits_one_validate_answers page_scope
              (VString "ABCD") (VRef alice_bob) page_with_players)
    as (l & props & _ & _ & _ & _ & _ & _ & _ & Hkeep).
  exact (Hkeep alice_bob _ eq_refl eq_refl).
Defined.

(** [sendAnswer("ABCD", "Alice", 42)] on the channel that refuses a
    BigInt: the channel takes the message and the call returns
    [undefined]. *)
Lemma returns_no_value_on_json_channel :
  Forall
    (fun m =>
       channel_raises m
         (heap (invoke page_scope
                  (SendAnswer (VString "ABCD") (VString "Alice")
                     (number_of_Z 42)) json_page).1)
         (chan json_page)
       = None)
    (emissions_of
       (invoke page_scope
          (SendAnswer (VString "ABCD") (VString "Alice") (number_of_Z 42)))
       json_page)
  /\ (invoke page_scope
       (SendAnswer (VString "ABCD") (VString "Alice") (number_of_Z 42))
       json_page).2
     = Normal VUndefined.
Proof.
  assert (Htakes :
    Forall
      (fun m =>
         channel_raises m
           (heap (invoke page_scope
                    (SendAnswer (VString "ABCD") (VString "Alice")
                       (number_of_Z 42)) json_page).1)
           (chan json_page)
         = None)
      (emissions_of
         (invoke page_scope
            (SendAnswer (VString "ABCD") (VString "Alice") (number_of_Z 42)))
         json_page)).
  { vm_compute. repeat constructor. }
  split; [exact Htakes |].
  exact (returns_no_value page_scope
           (SendAnswer (VString "ABCD") (VString "Alice") (number_of_Z 42))
           json_page Htakes).
Defined.

(** [endGame("ABCD")] on the loaded page and [endGame("WXYZ")] on the page
    with the players: both messages are ['end_game'], both calls are of
    [endGame]. *)
Lemma event_identifies_function_end_game :
  Emission 0 "end_game" [VRef 1%positive]
    ∈ emissions_of (invoke page_scope (EndGame (VString "ABCD"))) loaded_page
  /\ Emission 0 "end_game" [VRef 2%positive]
       ∈ emissions_of (invoke page_scope (EndGame (VString "WXYZ")))
           page_with_players
  /\ function_of (EndGame (VString "ABCD"))
     = function_of (EndGame (VString "WXYZ")).
Proof.
  assert (Hm1 : Emission 0 "end_game" [VRef 1%positive]
                  ∈ emissions_of (invoke page_scope (EndGame (VString "ABCD")))
                      loaded_page)
    by (vm_compute; constructor).
  assert (Hm2 : Emission 0 "end_game" [VRef 2%positive]
                  ∈ emissions_of (invoke page_scope (EndGame (VString "WXYZ")))
                      page_with_players)
    by (vm_compute; constructor).
  split; [exact Hm1 |]. split; [exact Hm2 |].
  exact (event_identifies_function page_scope page_scope _ _ _ _ _ _
           Hm1 Hm2 eq_refl).
Defined.

(** [joinGame("ABCD", "Alice")] on the loaded page, where the payload is
    object [1], and on the page with the players, where it is object [2]:
    the payloads have the same fields, the calls are the same. *)
Lemma payload_identifies_call_join :
  payload_of
    (invoke page_scope (JoinGame (VString "ABCD") (VString "Alice"))
       loaded_page).1
    (Emission 0 "join" [VRef 1%positive])
  = payload_of
      (invoke page_scope (JoinGame (VString "ABCD") (VString "Alice"))
         page_with_players).1
      (Emission 0 "join" [VRef 2%positive])
  /\ JoinGame (VString "ABCD") (VString "Alice")
     = JoinGame (VString "ABCD") (VString "Alice").
Proof.
  assert (Hm1 : Emission 0 "join" [VRef 1%positive]
                  ∈ emissions_of
                      (invoke page_scope
                         (JoinGame (VString "ABCD") (VString "Alice")))
                      loaded_page)
    by (vm_compute; constructor).
  assert (Hm2 : Emission 0 "join" [VRef 2%positive]
                  ∈ emissions_of
                      (invoke page_scope
                         (JoinGame (VString "ABCD") (VString "Alice")))
                      page_with_players)
    by (vm_compute; constructor).
  assert (Hpayload :
    payload_of
      (invoke page_scope (JoinGame (VString "ABCD") (VString "Alice"))
         loaded_page).1
      (Emission 0 "join" [VRef 1%positive])
    = payload_of
        (invoke page_scope (JoinGame (VString "ABCD") (VString "Alice"))
           page_with_players).1
        (Emission 0 "join" [VRef 2%positive]))
    by (vm_compute; reflexivity).
  split; [exact Hpayload |].
  exact (payload_identifies_call page_scope page_scope _ _ _ _ _ _
           Hm1 Hm2 Hpayload).
Defined.

(** [validateCorrectAnswers("ABCD", ["Alice", "Bob"])] on the page with
    the players: the heap holds the array, which holds no reference, and
    the one reference among the arguments is to the array. *)
Lemma call_adds_payload_to_players_page :
  heap_closed (heap page_with_players)
  /\ (forall a,
       VRef a
         ∈ args_of (ValidateCorrectAnswers (VString "ABCD") (VRef alice_bob)) ->
       is_Some (heap page_with_players !! a))
  /\ exists m l props,
       emissions_of
         (invoke page_scope
            (ValidateCorrectAnswers (VString "ABCD") (VRef alice_bob)))
         page_with_players = [m]
       /\ em_args m = [VRef l]
       /\ payload_of
            (invoke page_scope
               (ValidateCorrectAnswers (VString "ABCD") (VRef alice_bob))
               page_with_players).1 m = Some props
       /\ heap page_with_players !! l = None
       /\ dom (heap (invoke page_scope
                       (ValidateCorrectAnswers (VString "ABCD")
                          (VRef alice_bob))
                       page_with_players).1)
          = {[l]} ∪ dom (heap page_with_players)
       /\ (forall a,
             a <> l ->
             heap (invoke page_scope
                     (ValidateCorrectAnswers (VString "ABCD")
                        (VRef alice_bob))
                     page_with_players).1 !! a
             = heap page_with_players !! a)
       /\ (forall k a,
             props !! k = Some (VRef a) ->
             a <> l /\ is_Some (heap page_with_players !! a))
       /\ (forall x,
             ~ points_to
                 (heap (invoke page_scope
                          (ValidateCorrectAnswers (VString "ABCD")
                             (VRef alice_bob))
                          page_with_players).1) x l)
       /\ (forall x,
             on_cycle
               (heap (invoke page_scope
                        (ValidateCorrectAnswers (VString "ABCD")
                           (VRef alice_bob))
                        page_with_players).1) x ->
             on_cycle (heap page_with_players) x)
       /\ heap_closed
            (heap (invoke page_scope
                     (ValidateCorrectAnswers (VString "ABCD")
                        (VRef alice_bob))
                     page_with_players).1).
Proof.
  assert (Hclosed : heap_closed (heap page_with_players)).
  { intros x a (o & Ho & Hr). cbn [heap page_with_players] in Ho.
    apply lookup_singleton_Some in Ho as [_ <-]. cbn [refers_to] in Hr.
    apply elem_of_cons in Hr as [Hr | Hr]; [discriminate |].
    apply list_elem_of_singleton in Hr. discriminate. }
  assert (Hlive : forall a,
    VRef a
      ∈ args_of (ValidateCorrectAnswers (VString "ABCD") (VRef alice_bob)) ->
    is_Some (heap page_with_players !! a)).
  { intros a Ha. cbn [args_of] in Ha.
    apply elem_of_cons in Ha as [Ha | Ha]; [discriminate |].
    apply list_elem_of_singleton in Ha. injection Ha as ->.
    eexists. reflexivity. }
  split; [exact Hclosed |]. split; [exact Hlive |].
  exact (call_adds_payload_and_no_cycle page_scope
           (ValidateCorrectAnswers (VString "ABCD") (VRef alice_bob))
           page_with_players Hclosed Hlive).
Defined.

(** On the channel that refuses a BigInt, [sendAnswer("ABCD", "Alice", 7n)]
    then [endGame("ABCD")] in one handler: the first message is handed
    over, the channel raises, and no ['end_game'] follows. *)
Example handler_stops_at_bigint :
  let r := in_one_handler page_scope
             (SendAnswer (VString "ABCD") (VString "Alice") (VBigInt 7))
             (EndGame (VString "ABCD")) json_page in
  emitted r.1 = [Emission 0 "submit_answer" [VRef 1%positive]]
  /\ r.2 = Throw (VString "TypeError: Do not know how to serialize a BigInt").
Proof. split; vm_compute; reflexivity. Qed.

(** The same handler with the answer [42]: both messages go out. *)
Example handler_runs_through :
  let r := in_one_handler page_scope
             (SendAnswer (VString "ABCD") (VString "Alice") (number_of_Z 42))
             (EndGame (VString "ABCD")) json_page in
  emitted r.1 = [Emission 0 "submit_answer" [VRef 1%positive];
                 Emission 0 "end_game" [VRef 2%positive]]
  /\ chan r.1 = 2
  /\ r.2 = Normal VUndefined.
Proof. repeat split; vm_compute; reflexivity. Qed.

(** A fresh page has an empty log; after loading and three calls every
    message is on the one connection opened. *)
Lemma open_sockets_from_fresh_page :
  sockets_open fresh_page
  /\ exists scope,
       (load fresh_page).2 = Normal scope
       /\ socket scope < connections (load fresh_page).1
       /\ sockets_open
            (run_calls scope
               [JoinGame (VString "ABCD") (VString "Alice");
                SendAnswer (VString "ABCD") (VString "Alice")
                  (number_of_Z 42);
                EndGame (VString "ABCD")]
               (load fresh_page).1).
Proof.
  assert (Hopen : sockets_open fresh_page) by (vm_compute; constructor).
  split; [exact Hopen |].
  exact (messages_only_on_open_sockets _ fresh_page Hopen).
Defined.

(** C8, as first stated, fails where the channel raises: on the channel
    that refuses a BigInt, [sendAnswer("ABCD", "Alice", 7n)] does not
    return; the channel's exception leaves it. *)
Lemma call_does_not_return_when_channel_raises :
  (invoke page_scope
     (SendAnswer (VString "ABCD") (VString "Alice") (VBigInt 7))
     json_page).2
  = Throw (VString "TypeError: Do not know how to serialize a BigInt")
  /\ (invoke page_scope
        (SendAnswer (VString "ABCD") (VString "Alice") (VBigInt 7))
        json_page).2
     <> Normal VUndefined.
Proof. split; [vm_compute; reflexivity | vm_compute; discriminate]. Qed.
